(** * The todo list of [todo_frontend/src/App.js]

    A shallow embedding of the [App] component: its four pieces of React
    state, the updates its event handlers enqueue, and the handlers
    themselves, followed by the properties of the todo collection. *)

From Stdlib Require Import String Ascii.
From stdpp Require Import base numbers list sorting.

Local Open Scope Z_scope.
Local Open Scope nat_scope.

(** ** JavaScript strings

    A JavaScript string is a sequence of UTF-16 code units; [length], the
    [maxLength] attribute and [trim] all count and inspect code units. *)

Abbreviation jsstring := (list N).

(** Code units of an ASCII literal. *)
Definition of_ascii (s : string) : jsstring :=
  N_of_ascii <$> list_ascii_of_string s.

(** ECMAScript [WhiteSpace] and [LineTerminator] code points, the ones
    [String.prototype.trim] strips: TAB, LF, VT, FF, CR, SP, NBSP, U+1680,
    U+2000..U+200A, LS, PS, U+202F, U+205F, U+3000 and U+FEFF. *)
Definition isWhiteSpace (c : N) : bool :=
  bool_decide (c ∈ [9; 10; 11; 12; 13; 32; 160; 5760; 8232; 8233;
                    8239; 8287; 12288; 65279]%N)
  || ((8192 <=? c)%N && (c <=? 8202)%N).

Fixpoint trimStart (s : jsstring) : jsstring :=
  match s with
  | [] => []
  | c :: rest => if isWhiteSpace c then trimStart rest else s
  end.

Definition trimEnd (s : jsstring) : jsstring :=
  reverse (trimStart (reverse s)).

(** [s.trim()] *)
Definition trim (s : jsstring) : jsstring := trimEnd (trimStart s).

(** [ToBoolean] on a string: only the empty string is falsy. *)
Definition truthy (s : jsstring) : bool :=
  match s with [] => false | _ :: _ => true end.

(** ** The data: todo records and the component state *)

(** [{ id: Date.now(), title, completed }]; [Date.now()] is an integral
    number of milliseconds. *)
Record Todo := mkTodo {
  id : Z;
  title : jsstring;
  completed : bool
}.

(** The four [useState] cells of [App]; [editId] is [null] or an id. *)
Record State := mkState {
  todos : list Todo;
  input : jsstring;
  editId : option Z;
  editValue : jsstring
}.

(** [useState([])], [useState('')], [useState(null)], [useState('')]. *)
Definition initial : State :=
  {| todos := []; input := []; editId := None; editValue := [] |}.

(** ** React state updates

    A setter is called either with the next value or with an updater
    function of the previous value.  A handler is the closure created by the
    latest render: it reads the rendered state and enqueues updates, which
    React then applies in order. *)

Inductive SetStateAction (A : Type) : Type :=
| Value (v : A)
| Updater (f : A → A).
Arguments Value {A} v.
Arguments Updater {A} f.

Definition resolve {A : Type} (a : SetStateAction A) (prev : A) : A :=
  match a with
  | Value v => v
  | Updater f => f prev
  end.

Inductive Update : Type :=
| setTodos (a : SetStateAction (list Todo))
| setInput (v : jsstring)
| setEditId (v : option Z)
| setEditValue (v : jsstring).

Definition apply_update (st : State) (u : Update) : State :=
  match u with
  | setTodos a =>
      {| todos := resolve a (todos st); input := input st;
         editId := editId st; editValue := editValue st |}
  | setInput v =>
      {| todos := todos st; input := v;
         editId := editId st; editValue := editValue st |}
  | setEditId v =>
      {| todos := todos st; input := input st;
         editId := v; editValue := editValue st |}
  | setEditValue v =>
      {| todos := todos st; input := input st;
         editId := editId st; editValue := v |}
  end.

Definition Handler : Type := State → list Update.

(** An event reaches the handler of the latest render, whose closure holds
    the current state; the enqueued updates are applied before the next
    event is handled. *)
Definition fire (h : Handler) (st : State) : State :=
  foldl apply_update st (h st).

(** ** The handlers of [App] *)

(** [{ ...todo, completed: !todo.completed }] *)
Definition toggled (todo : Todo) : Todo :=
  {| id := id todo; title := title todo; completed := negb (completed todo) |}.

(** [{ ...todo, title: newTitle }] *)
Definition retitled (newTitle : jsstring) (todo : Todo) : Todo :=
  {| id := id todo; title := newTitle; completed := completed todo |}.

(** [onChange={e => setInput(e.target.value)}] *)
Definition onChangeInput (value : jsstring) : Handler :=
  λ _, [ setInput value ].

(** [handleAddTodo]; [now] is what [Date.now()] returns when it is called.
    Focusing the input element leaves the state alone. *)
Definition handleAddTodo (now : Z) : Handler :=
  λ r,
    let title := trim (input r) in
    if negb (truthy title) then []
    else
      [ setTodos (Value (todos r ++
                         [ {| id := now; title := title; completed := false |} ]));
        setInput [] ].

(** [toggleTodo] *)
Definition toggleTodo (i : Z) : Handler :=
  λ _,
    [ setTodos (Updater (fmap (λ todo,
                 if decide (id todo = i) then toggled todo else todo))) ].

(** [startEdit] *)
Definition startEdit (i : Z) (title : jsstring) : Handler :=
  λ _, [ setEditId (Some i); setEditValue title ].

(** [onChange={e => setEditValue(e.target.value)}] *)
Definition onChangeEdit (value : jsstring) : Handler :=
  λ _, [ setEditValue value ].

(** [handleEditSave]; [todo.id === editId] is false for every todo while
    [editId] is [null]. *)
Definition handleEditSave : Handler :=
  λ r,
    let newTitle := trim (editValue r) in
    if negb (truthy newTitle) then []
    else
      [ setTodos (Updater (fmap (λ todo,
                   if decide (Some (id todo) = editId r)
                   then retitled newTitle todo else todo)));
        setEditId None;
        setEditValue [] ].

(** [cancelEdit] *)
Definition cancelEdit : Handler :=
  λ _, [ setEditId None; setEditValue [] ].

(** [deleteTodo] *)
Definition deleteTodo (i : Z) : Handler :=
  λ _, [ setTodos (Updater (filter (λ todo, id todo ≠ i))) ].

(** ** The four operations on the collection

    [op_add]: the text is typed into the add field and the form submitted.
    [op_edit]: edit mode is entered on the todo (its field pre-filled with
    [shown]), the text is replaced by [rawNewTitle] and the form submitted. *)

Definition op_add (now : Z) (rawTitle : jsstring) (st : State) : State :=
  fire (handleAddTodo now) (fire (onChangeInput rawTitle) st).

Definition op_toggle (i : Z) (st : State) : State :=
  fire (toggleTodo i) st.

Definition op_edit (i : Z) (shown rawNewTitle : jsstring) (st : State) : State :=
  fire handleEditSave
    (fire (onChangeEdit rawNewTitle) (fire (startEdit i shown) st)).

Definition op_delete (i : Z) (st : State) : State :=
  fire (deleteTodo i) st.

(** A sequence of add calls, each with the clock reading of its moment. *)
Definition add_all (st : State) (calls : list (Z * jsstring)) : State :=
  foldl (λ s c, op_add c.1 c.2 s) st calls.

(** ** Events of the rendered page *)

Inductive Event : Type :=
| ChangeInput (value : jsstring)
| SubmitAdd (now : Z)
| Toggle (i : Z)
| StartEdit (i : Z) (title : jsstring)
| ChangeEdit (value : jsstring)
| SubmitEdit
| CancelEdit
| Delete (i : Z).

Definition handler_of (ev : Event) : Handler :=
  match ev with
  | ChangeInput value => onChangeInput value
  | SubmitAdd now => handleAddTodo now
  | Toggle i => toggleTodo i
  | StartEdit i title => startEdit i title
  | ChangeEdit value => onChangeEdit value
  | SubmitEdit => handleEditSave
  | CancelEdit => cancelEdit
  | Delete i => deleteTodo i
  end.

Definition step (st : State) (ev : Event) : State := fire (handler_of ev) st.

Definition run (st : State) (evs : list Event) : State := foldl step st evs.

(** [maxLength={80}] on both text fields. *)
Definition maxLength : nat := 80.

(** What the page lets through.  Both text fields carry [maxLength], so a
    change event delivers at most 80 code units; [startEdit] is only ever
    called as [startEdit(todo.id, todo.title)] for a rendered todo.  Every
    other event is left unconstrained, clock readings included. *)
Definition dispatchable (st : State) (ev : Event) : Prop :=
  match ev with
  | ChangeInput value | ChangeEdit value => length value ≤ maxLength
  | StartEdit i t => ∃ todo, todo ∈ todos st ∧ id todo = i ∧ title todo = t
  | _ => True
  end.

Inductive reachable : State → Prop :=
| reachable_initial : reachable initial
| reachable_step st ev :
    reachable st → dispatchable st ev → reachable (step st ev).

(** Among the elements of [l], only the one at position [i] may satisfy
    [P]. *)
Definition only_at {A : Type} (P : A → Prop) (l : list A) (i : nat) : Prop :=
  ∀ j y, l !! j = Some y → P y → j = i.

(** Every event of a session is let through in the state it meets. *)
Fixpoint dispatchable_all (st : State) (evs : list Event) : Prop :=
  match evs with
  | [] => True
  | ev :: evs' => dispatchable st ev ∧ dispatchable_all (step st ev) evs'
  end.

(** The rendered page holds at most 80 code units in every text it keeps. *)
Definition within_maxLength (st : State) : Prop :=
  Forall (λ todo, length (title todo) ≤ maxLength) (todos st)
  ∧ length (input st) ≤ maxLength
  ∧ length (editValue st) ≤ maxLength.

(** ** Concrete sessions *)

(** Two todos added while the clock shows the same millisecond. *)
Definition same_tick : list Event :=
  [ ChangeInput (of_ascii "a"); SubmitAdd 1000;
    ChangeInput (of_ascii "b"); SubmitAdd 1000 ].

Definition st_same_tick : State := run initial same_tick.

(** One todo, in edit mode, its field blanked out. *)
Definition st_blank_edit : State :=
  run initial [ ChangeInput (of_ascii "a"); SubmitAdd 1000;
                StartEdit 1000 (of_ascii "a"); ChangeEdit (of_ascii "   ") ].

(** The scenario of the walk-through: two todos added one millisecond apart. *)
Definition st_two : State :=
  add_all initial [ (1000%Z, of_ascii "Buy milk"); (1001%Z, of_ascii " Walk dog ") ].

(** ** The rendered page

    What [App] returns for a state, as far as it depends on the state: the
    add field and its button, the empty-list message, and one list item per
    todo. *)

(** An item shows either the edit form, its field holding [editValue], or
    the title text. *)
Inductive ItemBody : Type :=
| EditForm (value : jsstring)
| TitleText (text : jsstring).

Record ItemView := mkItemView {
  item_key : Z;
  item_className : jsstring;
  checkbox_checked : bool;
  checkbox_label : jsstring;
  item_body : ItemBody;
  item_actions : bool
}.

Record View := mkView {
  add_value : jsstring;
  add_disabled : bool;
  empty_message : bool;
  items : list ItemView
}.

(** The [<li>] of one todo; the Edit and Delete buttons are rendered under
    [editId !== todo.id]. *)
Definition renderItem (st : State) (todo : Todo) : ItemView :=
  let editing := bool_decide (editId st = Some (id todo)) in
  {| item_key := id todo;
     item_className :=
       of_ascii "todo-item"
       ++ (if completed todo then of_ascii " completed" else [])
       ++ (if editing then of_ascii " editing" else []);
     checkbox_checked := completed todo;
     checkbox_label :=
       if completed todo then of_ascii "Mark incomplete"
       else of_ascii "Mark complete";
     item_body :=
       if editing then EditForm (editValue st) else TitleText (title todo);
     item_actions := negb editing |}.

Definition render (st : State) : View :=
  {| add_value := input st;
     add_disabled := negb (truthy (trim (input st)));
     empty_message := bool_decide (length (todos st) = 0);
     items := renderItem st <$> todos st |}.

Definition shows_edit_form (it : ItemView) : Prop :=
  ∃ value, item_body it = EditForm value.

(** The events a rendered page offers.  The checkbox of an item toggles its
    todo; the title text (double click) and the Edit button, both rendered
    outside edit mode only, call [startEdit(todo.id, todo.title)]; the edit
    field and the save and cancel controls exist inside an edit form; the
    Delete button is among the item's actions.  Submitting the add form is
    left unconstrained. *)
Definition offered (v : View) (ev : Event) : Prop :=
  match ev with
  | ChangeInput value => length value ≤ maxLength
  | SubmitAdd _ => True
  | Toggle i => ∃ it, it ∈ items v ∧ item_key it = i
  | StartEdit i t =>
      ∃ it, it ∈ items v ∧ item_key it = i ∧ item_body it = TitleText t
  | ChangeEdit value =>
      (∃ it, it ∈ items v ∧ shows_edit_form it) ∧ length value ≤ maxLength
  | SubmitEdit | CancelEdit => ∃ it, it ∈ items v ∧ shows_edit_form it
  | Delete i => ∃ it, it ∈ items v ∧ item_key it = i ∧ item_actions it = true
  end.

(** The list items carry pairwise distinct keys, as React requires of
    [key={todo.id}]: only then is the list on screen known to be the one
    [App] returns. *)
Definition keys_distinct (v : View) : Prop := NoDup (item_key <$> items v).

(** A session in which the keys stay pairwise distinct in every state that
    is met, the last one included, and every event is offered by the page
    it meets.  Sessions that reach two todos with one key are left out. *)
Fixpoint offered_all (st : State) (evs : list Event) : Prop :=
  match evs with
  | [] => keys_distinct (render st)
  | ev :: evs' =>
      keys_distinct (render st)
      ∧ offered (render st) ev
      ∧ offered_all (step st ev) evs'
  end.

(** The clock readings that the add submissions of a session come with. *)
Definition clock_of (evs : list Event) : list Z :=
  omap (λ ev, match ev with SubmitAdd now => Some now | _ => None end) evs.

(** Typing in a field, entering edit mode and cancelling it. *)
Definition session_only (ev : Event) : bool :=
  match ev with
  | ChangeInput _ | StartEdit _ _ | ChangeEdit _ | CancelEdit => true
  | SubmitAdd _ | Toggle _ | SubmitEdit | Delete _ => false
  end.

(** A text that is not empty and has no white space at either end. *)
Definition clean_title (s : jsstring) : Prop :=
  s ≠ []
  ∧ trim s = s
  ∧ (∀ c, head s = Some c → isWhiteSpace c = false)
  ∧ (∀ c, last s = Some c → isWhiteSpace c = false).

(** The edit slot points at a stored todo, and holds no text when empty. *)
Definition edit_slot_sound (st : State) : Prop :=
  (∀ i, editId st = Some i → i ∈ (id <$> todos st))
  ∧ (editId st = None → editValue st = []).

(** A page session: add, start editing, type, toggle the other todo, save. *)
Definition page_session : list Event :=
  [ ChangeInput (of_ascii "Buy milk"); SubmitAdd 1000;
    ChangeInput (of_ascii " Walk dog "); SubmitAdd 1001;
    StartEdit 1001 (of_ascii "Walk dog");
    ChangeEdit (of_ascii "Walk the dog");
    Toggle 1000 ].

(** * Properties *)

(** ** Lists: a conditional map or filter that meets one element *)

Section one_match.
Context {A : Type} (P : A → Prop) `{!∀ x, Decision (P x)}.

Lemma only_at_tail x l i : only_at P (x :: l) (S i) → only_at P l i.
Proof.
  intros Hu j y Hj Hy. specialize (Hu (S j) y Hj Hy). lia.
Qed.

Lemma only_at_head x l : only_at P (x :: l) 0 → Forall (λ y, ¬ P y) l.
Proof.
  intros Hu. apply Forall_lookup. intros j y Hj Hy.
  specialize (Hu (S j) y Hj Hy). lia.
Qed.

Lemma fmap_if_none (f : A → A) l :
  Forall (λ y, ¬ P y) l → (λ y, if decide (P y) then f y else y) <$> l = l.
Proof.
  induction 1 as [|y l Hy _ IH]; [done|].
  rewrite fmap_cons, IH. by rewrite decide_False.
Qed.

Lemma filter_none l :
  Forall (λ y, ¬ P y) l → filter (λ y, ¬ P y) l = l.
Proof.
  induction 1 as [|y l Hy _ IH]; [done|].
  by rewrite filter_cons_True, IH.
Qed.

Lemma fmap_if_one (f : A → A) l i x :
  l !! i = Some x → P x → only_at P l i →
  (λ y, if decide (P y) then f y else y) <$> l = <[i := f x]> l.
Proof.
  revert i. induction l as [|y l IH]; intros [|i] Hi Hx Hu; try done.
  - simpl in Hi. injection Hi as ->.
    rewrite fmap_cons, decide_True by done. simpl. f_equal.
    apply fmap_if_none. by eapply only_at_head.
  - simpl in Hi. rewrite fmap_cons. simpl.
    rewrite decide_False.
    + f_equal. apply IH; [done..|]. by eapply only_at_tail.
    + intros Hy. by specialize (Hu 0 y eq_refl Hy).
Qed.

Lemma filter_not_one l i x :
  l !! i = Some x → P x → only_at P l i →
  filter (λ y, ¬ P y) l = delete i l.
Proof.
  revert i. induction l as [|y l IH]; intros [|i] Hi Hx Hu; try done.
  - simpl in Hi. injection Hi as ->.
    rewrite filter_cons_False by (intros Hn; by apply Hn). simpl.
    apply filter_none. by eapply only_at_head.
  - simpl in Hi. rewrite filter_cons_True.
    + simpl. f_equal. apply IH; [done..|]. by eapply only_at_tail.
    + intros Hy. by specialize (Hu 0 y eq_refl Hy).
Qed.

Lemma length_filter_split l :
  length (filter (λ y, ¬ P y) l) + length (filter P l) = length l.
Proof.
  induction l as [|y l IH]; [done|].
  rewrite !filter_cons. destruct (decide (P y)) as [Hy|Hy].
  - rewrite decide_False by (intros Hn; by apply Hn). simpl. lia.
  - rewrite decide_True by done. simpl. lia.
Qed.
End one_match.

(** ** Strings: trimming never lengthens *)

Lemma length_trimStart (s : jsstring) : length (trimStart s) ≤ length s.
Proof.
  induction s as [|c s IH]; simpl; [done|].
  destruct (isWhiteSpace c); simpl; lia.
Qed.

Lemma length_trim (s : jsstring) : length (trim s) ≤ length s.
Proof.
  unfold trim, trimEnd. rewrite length_reverse.
  etrans; [apply length_trimStart|]. rewrite length_reverse.
  apply length_trimStart.
Qed.

Lemma truthy_nonempty (s : jsstring) : s ≠ [] → truthy s = true.
Proof. by destruct s. Qed.

(** ** What each operation does to the collection *)

Lemma todos_op_add now raw st :
  trim raw ≠ [] →
  todos (op_add now raw st) =
    todos st ++ [ {| id := now; title := trim raw; completed := false |} ].
Proof.
  intros Hne. unfold op_add, fire, handleAddTodo. simpl.
  by rewrite (truthy_nonempty _ Hne).
Qed.

Lemma op_add_blank now raw st :
  trim raw = [] →
  op_add now raw st =
    {| todos := todos st; input := raw;
       editId := editId st; editValue := editValue st |}.
Proof.
  intros He. unfold op_add, fire, handleAddTodo. simpl. by rewrite He.
Qed.

Lemma todos_op_toggle i st :
  todos (op_toggle i st) =
    (λ todo, if decide (id todo = i) then toggled todo else todo) <$> todos st.
Proof. done. Qed.

Lemma todos_op_delete i st :
  todos (op_delete i st) = filter (λ todo, id todo ≠ i) (todos st).
Proof. done. Qed.

Lemma save_nonblank st :
  trim (editValue st) ≠ [] →
  fire handleEditSave st =
    {| todos := (λ todo, if decide (Some (id todo) = editId st)
                         then retitled (trim (editValue st)) todo else todo)
                <$> todos st;
       input := input st; editId := None; editValue := [] |}.
Proof.
  intros Hne. unfold fire, handleEditSave. simpl.
  by rewrite (truthy_nonempty _ Hne).
Qed.

Lemma save_blank st : trim (editValue st) = [] → fire handleEditSave st = st.
Proof.
  intros He. unfold fire, handleEditSave. simpl. rewrite He. by destruct st.
Qed.

Lemma todos_op_edit i shown raw st :
  trim raw ≠ [] →
  todos (op_edit i shown raw st) =
    (λ todo, if decide (Some (id todo) = Some i)
             then retitled (trim raw) todo else todo) <$> todos st.
Proof.
  intros Hne. unfold op_edit. by rewrite save_nonblank.
Qed.

Lemma todos_op_edit_blank i shown raw st :
  trim raw = [] → todos (op_edit i shown raw st) = todos st.
Proof.
  intros He. unfold op_edit. by rewrite save_blank.
Qed.

Lemma todos_add_all st calls :
  Forall (λ c, trim c.2 ≠ []) calls →
  todos (add_all st calls) =
    todos st ++ ((λ c, {| id := c.1; title := trim c.2; completed := false |})
                 <$> calls).
Proof.
  intros Hcalls. revert st.
  induction Hcalls as [|c calls Hc _ IH]; intros st; simpl.
  - by rewrite app_nil_r.
  - unfold add_all in *. simpl. rewrite IH, todos_op_add by done.
    by rewrite <- app_assoc.
Qed.

(** ** Sessions and reachable states *)

Lemma reachable_run st evs :
  reachable st → dispatchable_all st evs → reachable (run st evs).
Proof.
  revert st. induction evs as [|ev evs IH]; intros st Hst Hevs; [done|].
  destruct Hevs as [Hev Hevs]. apply IH; [|done]. by constructor.
Qed.

Lemma st_same_tick_reachable : reachable st_same_tick.
Proof.
  apply reachable_run; [constructor|].
  simpl. unfold maxLength. repeat split; vm_compute; lia.
Qed.

Lemma st_blank_edit_reachable : reachable st_blank_edit.
Proof.
  apply reachable_run; [constructor|].
  simpl. unfold maxLength.
  repeat split; try (vm_compute; lia).
  eexists. split; [apply list_elem_of_here|]. by vm_compute.
Qed.

Lemma within_maxLength_step st ev :
  within_maxLength st → dispatchable st ev → within_maxLength (step st ev).
Proof.
  intros (Ht & Hi & He) Hev. unfold within_maxLength.
  destruct ev as [v|now|i|i t|v| | |i]; simpl in Hev.
  - done.
  - unfold step, fire. simpl. unfold handleAddTodo.
    destruct (truthy (trim (input st))); simpl; [|done].
    repeat split; [|unfold maxLength; lia|done].
    apply Forall_app. split; [done|]. apply Forall_singleton. simpl.
    etrans; [apply length_trim|done].
  - repeat split; [|done..]. simpl.
    apply Forall_fmap. eapply Forall_impl; [exact Ht|].
    intros todo Hl. simpl. by destruct (decide (id todo = i)).
  - destruct Hev as (todo & Hin & _ & <-). repeat split; [done..|]. simpl.
    rewrite Forall_forall in Ht. by apply Ht.
  - done.
  - unfold step, fire. simpl. unfold handleEditSave.
    destruct (truthy (trim (editValue st))) eqn:Htr; simpl; [|done].
    repeat split; [|done|unfold maxLength; lia].
    apply Forall_fmap. eapply Forall_impl; [exact Ht|].
    intros todo Hl. simpl.
    destruct (decide (Some (id todo) = editId st)); [|done]. simpl.
    etrans; [apply length_trim|done].
  - repeat split; [done..|]. simpl. unfold maxLength. lia.
  - repeat split; [|done..]. simpl.
    apply Forall_forall. intros todo [_ Hin]%list_elem_of_filter.
    rewrite Forall_forall in Ht. by apply Ht.
Qed.

(** ** Identifiers: which operations keep them distinct *)

Lemma ids_op_toggle i st : id <$> todos (op_toggle i st) = id <$> todos st.
Proof.
  rewrite todos_op_toggle, <- list_fmap_compose.
  apply list_fmap_ext. intros _ todo _. simpl.
  by destruct (decide (id todo = i)).
Qed.

Lemma ids_fire_handleEditSave st :
  id <$> todos (fire handleEditSave st) = id <$> todos st.
Proof.
  destruct (decide (trim (editValue st) = [])) as [He|Hne].
  - by rewrite save_blank.
  - rewrite save_nonblank by done. simpl. rewrite <- list_fmap_compose.
    apply list_fmap_ext. intros _ todo _. simpl.
    by destruct (decide (Some (id todo) = editId st)).
Qed.

Lemma NoDup_ids_op_delete i st :
  NoDup (id <$> todos st) → NoDup (id <$> todos (op_delete i st)).
Proof.
  rewrite todos_op_delete. intros Hnd.
  eapply sublist_NoDup; [exact Hnd|].
  apply fmap_sublist, sublist_filter.
Qed.

Lemma NoDup_ids_op_add now raw st :
  now ∉ (id <$> todos st) →
  NoDup (id <$> todos st) → NoDup (id <$> todos (op_add now raw st)).
Proof.
  intros Hfresh Hnd. destruct (decide (trim raw = [])) as [He|Hne].
  - by rewrite op_add_blank.
  - rewrite todos_op_add by done. rewrite fmap_app. simpl.
    apply NoDup_app. split_and!; [done| |apply NoDup_singleton].
    intros x Hx ->%list_elem_of_singleton. done.
Qed.

Lemma NoDup_ids_only_at (l : list Todo) i X :
  NoDup (id <$> l) → l !! i = Some X → only_at (λ todo, id todo = id X) l i.
Proof.
  intros Hnd Hi j Y Hj Heq.
  eapply NoDup_lookup; [exact Hnd| |].
  - rewrite list_lookup_fmap, Hj. simpl. by rewrite Heq.
  - by rewrite list_lookup_fmap, Hi.
Qed.

Lemma only_at_Some (l : list Todo) i (k : Z) :
  only_at (λ todo, id todo = k) l i →
  only_at (λ todo, Some (id todo) = Some k) l i.
Proof.
  intros Hu j Y Hj [= Heq]. by eapply Hu.
Qed.

Lemma one_match_filter {A} (P : A → Prop) `{!∀ x, Decision (P x)} l k y :
  l !! k = Some y → P y → 1 ≤ length (filter P l).
Proof.
  intros Hk Hy.
  assert (y ∈ filter P l) as Hin.
  { apply list_elem_of_filter. split; [done|]. by eapply list_elem_of_lookup_2. }
  destruct (filter P l); [by apply elem_of_nil in Hin|]. simpl. lia.
Qed.

Lemma two_matches {A} (P : A → Prop) `{!∀ x, Decision (P x)} l j k x y :
  j ≠ k → l !! j = Some x → l !! k = Some y → P x → P y →
  2 ≤ length (filter P l).
Proof.
  revert j k. induction l as [|z l IH]; intros [|j] [|k] Hjk Hj Hk Hx Hy;
    try done; simpl in Hj, Hk.
  - injection Hj as ->. rewrite filter_cons_True by done. simpl.
    pose proof (one_match_filter P l k y Hk Hy). lia.
  - injection Hk as ->. rewrite filter_cons_True by done. simpl.
    pose proof (one_match_filter P l j x Hj Hx). lia.
  - assert (2 ≤ length (filter P l)) by (eapply (IH j k); [lia|done..]).
    rewrite filter_cons. destruct (decide (P z)); simpl; lia.
Qed.

(** ** add *)

(** C1: when the trimmed input is not empty, add appends exactly one todo
    at the end: its title is the trimmed input, it is not completed, and
    its id is the clock reading taken by that call.  Hence adds with
    non-empty trimmed titles, starting from the empty store, leave as many
    todos as there were calls, with the trimmed titles in call order. *)
Theorem add_appends_in_call_order
    (st : State) (now : Z) (raw : jsstring) (calls : list (Z * jsstring)) :
  trim raw ≠ [] →
  Forall (λ c, trim c.2 ≠ []) calls →
  todos (op_add now raw st) =
    todos st ++ [ {| id := now; title := trim raw; completed := false |} ]
  ∧ length (todos (add_all initial calls)) = length calls
  ∧ title <$> todos (add_all initial calls) = (λ c, trim c.2) <$> calls
  ∧ todos (add_all initial calls) =
      (λ c, {| id := c.1; title := trim c.2; completed := false |}) <$> calls.
Proof.
  intros Hraw Hcalls. split; [by apply todos_op_add|].
  rewrite (todos_add_all initial calls Hcalls). simpl.
  split_and!; [by rewrite length_fmap| |done].
  rewrite <- list_fmap_compose. by apply list_fmap_ext.
Qed.

Lemma add_appends_in_call_order_witness :
  trim (of_ascii "  Feed cat ") ≠ []
  ∧ Forall (λ c : Z * jsstring, trim c.2 ≠ [])
      [ (1000%Z, of_ascii "Buy milk"); (1001%Z, of_ascii " Walk dog ") ]
  ∧ todos (op_add 1002 (of_ascii "  Feed cat ") st_two) =
      todos st_two ++
        [ {| id := 1002; title := of_ascii "Feed cat"; completed := false |} ]
  ∧ title <$> todos st_two = [ of_ascii "Buy milk"; of_ascii "Walk dog" ].
Proof.
  assert (trim (of_ascii "  Feed cat ") ≠ []) as H1 by (vm_compute; discriminate).
  assert (Forall (λ c : Z * jsstring, trim c.2 ≠ [])
            [ (1000%Z, of_ascii "Buy milk"); (1001%Z, of_ascii " Walk dog ") ])
    as H2 by (repeat constructor; vm_compute; discriminate).
  destruct (add_appends_in_call_order st_two 1002 _ _ H1 H2) as (Ha & _ & Ht & _).
  split; [exact H1|]. split; [exact H2|]. split; [exact Ha|exact Ht].
Defined.

(** C8: a text whose trimmed form is empty changes nothing in the store,
    whether it is added or saved as the new title of any todo; the empty
    text and a text of three spaces are such texts. *)
Theorem blank_text_changes_nothing
    (st : State) (now i : Z) (shown raw : jsstring) :
  trim raw = [] →
  todos (op_add now raw st) = todos st
  ∧ todos (op_edit i shown raw st) = todos st
  ∧ todos (op_add now (of_ascii "") st) = todos st
  ∧ todos (op_add now (of_ascii "   ") st) = todos st
  ∧ todos (op_edit i shown (of_ascii "") st) = todos st.
Proof.
  intros He. split_and!.
  - by rewrite op_add_blank.
  - by apply todos_op_edit_blank.
  - by rewrite op_add_blank.
  - by rewrite op_add_blank.
  - by apply todos_op_edit_blank.
Qed.

Lemma blank_text_changes_nothing_witness :
  trim (of_ascii "   ") = []
  ∧ todos (op_add 1002 (of_ascii "   ") st_two) = todos st_two
  ∧ todos (op_edit 1000 (of_ascii "Buy milk") (of_ascii "   ") st_two)
    = todos st_two.
Proof.
  assert (trim (of_ascii "   ") = []) as H1 by reflexivity.
  destruct (blank_text_changes_nothing st_two 1002 1000 (of_ascii "Buy milk")
              _ H1) as (Ha & He & _).
  split; [exact H1|]. split; [exact Ha|exact He].
Defined.

(** ** toggle *)

(** C2, as stated, fails where two stored todos carry one id: in the
    session that adds two todos at the same clock reading, toggling the
    first one's id also flips the second. *)
Lemma toggle_flips_the_twin_too :
  reachable st_same_tick
  ∧ todos st_same_tick !! 0 =
      Some {| id := 1000; title := of_ascii "a"; completed := false |}
  ∧ todos (op_toggle 1000 st_same_tick) !! 1 ≠ todos st_same_tick !! 1
  ∧ todos (op_toggle 1000 st_same_tick) ≠
      <[0 := toggled {| id := 1000; title := of_ascii "a"; completed := false |}]>
        (todos st_same_tick).
Proof.
  split; [apply st_same_tick_reachable|].
  split; [reflexivity|]. split; vm_compute; discriminate.
Qed.

(** C2, amended: in a store where no other todo carries X's id, toggle(X.id)
    replaces X, at its position, by X with the completed flag negated and
    the same id and title; every other position holds what it held and the
    length is the same. *)
Theorem toggle_flips_only_the_match (st : State) (i : nat) (X : Todo) :
  todos st !! i = Some X →
  only_at (λ todo, id todo = id X) (todos st) i →
  todos (op_toggle (id X) st) = <[i := toggled X]> (todos st)
  ∧ todos (op_toggle (id X) st) !! i =
      Some {| id := id X; title := title X; completed := negb (completed X) |}
  ∧ (∀ j, j ≠ i → todos (op_toggle (id X) st) !! j = todos st !! j)
  ∧ length (todos (op_toggle (id X) st)) = length (todos st).
Proof.
  intros Hi Hu.
  assert (todos (op_toggle (id X) st) = <[i := toggled X]> (todos st)) as ->.
  { rewrite todos_op_toggle.
    by apply (fmap_if_one (λ todo, id todo = id X) toggled). }
  split_and!; [done| | |by rewrite length_insert].
  - apply list_lookup_insert_eq. by eapply lookup_lt_Some.
  - intros j Hj. by apply list_lookup_insert_ne.
Qed.

Lemma toggle_flips_only_the_match_witness :
  todos st_two !! 0 =
    Some {| id := 1000; title := of_ascii "Buy milk"; completed := false |}
  ∧ only_at (λ todo, id todo = 1000%Z) (todos st_two) 0
  ∧ todos (op_toggle 1000 st_two) =
      [ {| id := 1000; title := of_ascii "Buy milk"; completed := true |};
        {| id := 1001; title := of_ascii "Walk dog"; completed := false |} ].
Proof.
  assert (todos st_two !! 0 =
    Some {| id := 1000; title := of_ascii "Buy milk"; completed := false |})
    as H1 by reflexivity.
  assert (only_at (λ todo, id todo = 1000%Z) (todos st_two) 0) as H2.
  { intros [|[|j]] Y Hj HY; [reflexivity| |discriminate Hj].
    injection Hj as <-. discriminate HY. }
  split; [exact H1|]. split; [exact H2|].
  exact (proj1 (toggle_flips_only_the_match st_two 0 _ H1 H2)).
Defined.

(** ** edit *)

(** C3, as stated, fails where two stored todos carry one id: after two
    adds at the same clock reading, saving a new title for the first one's
    id retitles the second as well. *)
Lemma edit_retitles_the_twin_too :
  reachable st_same_tick
  ∧ todos st_same_tick !! 0 =
      Some {| id := 1000; title := of_ascii "a"; completed := false |}
  ∧ todos (op_edit 1000 (of_ascii "a") (of_ascii "  New  ") st_same_tick) !! 1
    ≠ todos st_same_tick !! 1
  ∧ todos (op_edit 1000 (of_ascii "a") (of_ascii "  New  ") st_same_tick) ≠
      <[0 := {| id := 1000; title := of_ascii "New"; completed := false |}]>
        (todos st_same_tick).
Proof.
  split; [apply st_same_tick_reachable|].
  split; [reflexivity|]. split; vm_compute; discriminate.
Qed.

(** C3, amended: in a store where no other todo carries X's id, and for a
    text whose trimmed form is not empty, edit(X.id, text) replaces X, at
    its position, by X with the trimmed text as title and the same id and
    completed flag; every other position holds what it held.  With the text
    "  New  " the title becomes "New". *)
Theorem edit_retitles_only_the_match
    (st : State) (i : nat) (X : Todo) (shown raw : jsstring) :
  todos st !! i = Some X →
  only_at (λ todo, id todo = id X) (todos st) i →
  trim raw ≠ [] →
  todos (op_edit (id X) shown raw st) = <[i := retitled (trim raw) X]> (todos st)
  ∧ todos (op_edit (id X) shown raw st) !! i =
      Some {| id := id X; title := trim raw; completed := completed X |}
  ∧ (∀ j, j ≠ i → todos (op_edit (id X) shown raw st) !! j = todos st !! j)
  ∧ length (todos (op_edit (id X) shown raw st)) = length (todos st)
  ∧ todos (op_edit (id X) shown (of_ascii "  New  ") st) !! i =
      Some {| id := id X; title := of_ascii "New"; completed := completed X |}.
Proof.
  intros Hi Hu Hraw.
  assert (∀ text, trim text ≠ [] →
            todos (op_edit (id X) shown text st) =
              <[i := retitled (trim text) X]> (todos st)) as Hedit.
  { intros text Htext. rewrite todos_op_edit by done.
    apply (fmap_if_one (λ todo, Some (id todo) = Some (id X))
             (retitled (trim text))); [done..|].
    by apply only_at_Some. }
  assert (i < length (todos st)) as Hlt by (by eapply lookup_lt_Some).
  rewrite (Hedit raw Hraw).
  split_and!; [done| | |by rewrite length_insert|].
  - by apply list_lookup_insert_eq.
  - intros j Hj. by apply list_lookup_insert_ne.
  - rewrite Hedit by (vm_compute; discriminate).
    by apply list_lookup_insert_eq.
Qed.

Lemma edit_retitles_only_the_match_witness :
  todos st_two !! 1 =
    Some {| id := 1001; title := of_ascii "Walk dog"; completed := false |}
  ∧ only_at (λ todo, id todo = 1001%Z) (todos st_two) 1
  ∧ trim (of_ascii " Walk the dog ") ≠ []
  ∧ todos (op_edit 1001 (of_ascii "Walk dog") (of_ascii " Walk the dog ") st_two) =
      [ {| id := 1000; title := of_ascii "Buy milk"; completed := false |};
        {| id := 1001; title := of_ascii "Walk the dog"; completed := false |} ].
Proof.
  assert (todos st_two !! 1 =
    Some {| id := 1001; title := of_ascii "Walk dog"; completed := false |})
    as H1 by reflexivity.
  assert (only_at (λ todo, id todo = 1001%Z) (todos st_two) 1) as H2.
  { intros [|[|j]] Y Hj HY; [|reflexivity|discriminate Hj].
    injection Hj as <-. discriminate HY. }
  assert (trim (of_ascii " Walk the dog ") ≠ []) as H3
    by (vm_compute; discriminate).
  split; [exact H1|]. split; [exact H2|]. split; [exact H3|].
  exact (proj1 (edit_retitles_only_the_match st_two 1 _ (of_ascii "Walk dog")
                  _ H1 H2 H3)).
Defined.

(** ** delete *)

(** C4, as stated, fails where two stored todos carry one id: after two
    adds at the same clock reading, deleting the first one's id empties the
    store, so the length drops by two. *)
Lemma delete_removes_the_twin_too :
  reachable st_same_tick
  ∧ todos st_same_tick !! 0 =
      Some {| id := 1000; title := of_ascii "a"; completed := false |}
  ∧ length (todos st_same_tick) = 2
  ∧ length (todos (op_delete 1000 st_same_tick)) = 0
  ∧ todos (op_delete 1000 st_same_tick) ≠ delete 0 (todos st_same_tick).
Proof.
  split; [apply st_same_tick_reachable|].
  split_and!; [reflexivity..|]. vm_compute; discriminate.
Qed.

(** C4, amended: in a store where no other todo carries X's id,
    delete(X.id) removes the todo at X's position and nothing else: the
    others stay, in their order, and the store is shorter by exactly one. *)
Theorem delete_removes_only_the_match (st : State) (i : nat) (X : Todo) :
  todos st !! i = Some X →
  only_at (λ todo, id todo = id X) (todos st) i →
  todos (op_delete (id X) st) = delete i (todos st)
  ∧ todos (op_delete (id X) st) = take i (todos st) ++ drop (S i) (todos st)
  ∧ length (todos st) = S (length (todos (op_delete (id X) st))).
Proof.
  intros Hi Hu.
  assert (todos (op_delete (id X) st) = delete i (todos st)) as ->.
  { rewrite todos_op_delete.
    by apply (filter_not_one (λ todo, id todo = id X) _ i X). }
  assert (i < length (todos st)) as Hlt by (by eapply lookup_lt_Some).
  split_and!; [done|by rewrite delete_take_drop|].
  rewrite length_delete by done. lia.
Qed.

Lemma delete_removes_only_the_match_witness :
  todos st_two !! 0 =
    Some {| id := 1000; title := of_ascii "Buy milk"; completed := false |}
  ∧ only_at (λ todo, id todo = 1000%Z) (todos st_two) 0
  ∧ todos (op_delete 1000 st_two) =
      [ {| id := 1001; title := of_ascii "Walk dog"; completed := false |} ].
Proof.
  assert (todos st_two !! 0 =
    Some {| id := 1000; title := of_ascii "Buy milk"; completed := false |})
    as H1 by reflexivity.
  assert (only_at (λ todo, id todo = 1000%Z) (todos st_two) 0) as H2.
  { intros [|[|j]] Y Hj HY; [reflexivity| |discriminate Hj].
    injection Hj as <-. discriminate HY. }
  split; [exact H1|]. split; [exact H2|].
  exact (proj1 (delete_removes_only_the_match st_two 0 _ H1 H2)).
Defined.

(** ** No matching id *)

(** C9: for an id that no stored todo carries, toggle and delete leave the
    whole state as it was, and edit, whatever the text, leaves the store as
    it was.  The handlers are total functions: nothing in them can fail. *)
Theorem missing_id_is_a_no_op (st : State) (i : Z) (shown raw : jsstring) :
  i ∉ (id <$> todos st) →
  op_toggle i st = st
  ∧ op_delete i st = st
  ∧ todos (op_edit i shown raw st) = todos st.
Proof.
  intros Hi.
  assert (Forall (λ todo, ¬ id todo = i) (todos st)) as Hno.
  { apply Forall_forall. intros todo Hin Heq. apply Hi.
    apply list_elem_of_fmap. by exists todo. }
  split_and!.
  - unfold op_toggle, fire. simpl.
    rewrite (fmap_if_none (λ todo, id todo = i)) by done. by destruct st.
  - unfold op_delete, fire. simpl.
    rewrite (filter_none (λ todo, id todo = i)) by done. by destruct st.
  - destruct (decide (trim raw = [])) as [He|Hne].
    + by apply todos_op_edit_blank.
    + rewrite todos_op_edit by done.
      apply (fmap_if_none (λ todo, Some (id todo) = Some i)).
      eapply Forall_impl; [exact Hno|]. intros todo Hn [= Heq]. done.
Qed.

Lemma missing_id_is_a_no_op_witness :
  (4242%Z ∉ (id <$> todos st_two))
  ∧ op_toggle 4242 st_two = st_two
  ∧ op_delete 4242 st_two = st_two
  ∧ todos (op_edit 4242 [] (of_ascii "x") st_two) = todos st_two.
Proof.
  assert (4242%Z ∉ (id <$> todos st_two)) as H1.
  { apply (bool_decide_unpack _). vm_compute. exact I. }
  split; [exact H1|].
  exact (missing_id_is_a_no_op st_two 4242 [] (of_ascii "x") H1).
Defined.

(** ** Several todos with one id *)

(** C10: delete removes every stored todo that carries the id and toggle
    flips every one of them.  With the id at two different positions,
    nothing carrying it survives a delete, the store gets shorter by at
    least two, and after a toggle both positions hold their todo with the
    completed flag negated and the same id and title; at any position the
    flag is negated exactly when the id matches. *)
Theorem delete_and_toggle_reach_every_match
    (st : State) (i : Z) (j k : nat) (X Y : Todo) :
  j ≠ k →
  todos st !! j = Some X → todos st !! k = Some Y →
  id X = i → id Y = i →
  (∀ todo, todo ∈ todos (op_delete i st) ↔ todo ∈ todos st ∧ id todo ≠ i)
  ∧ length (todos (op_delete i st))
    + length (filter (λ todo, id todo = i) (todos st)) = length (todos st)
  ∧ length (todos (op_delete i st)) + 2 ≤ length (todos st)
  ∧ todos (op_toggle i st) !! j =
      Some {| id := id X; title := title X; completed := negb (completed X) |}
  ∧ todos (op_toggle i st) !! k =
      Some {| id := id Y; title := title Y; completed := negb (completed Y) |}
  ∧ (∀ n todo, todos st !! n = Some todo →
       todos (op_toggle i st) !! n =
         Some (if decide (id todo = i)
               then {| id := id todo; title := title todo;
                       completed := negb (completed todo) |}
               else todo)).
Proof.
  intros Hjk Hj Hk HX HY.
  pose proof (length_filter_split (λ todo, id todo = i) (todos st)) as Hsplit.
  pose proof (two_matches (λ todo, id todo = i) _ j k X Y Hjk Hj Hk HX HY)
    as Htwo.
  assert (∀ n todo, todos st !! n = Some todo →
            todos (op_toggle i st) !! n =
              Some (if decide (id todo = i)
                    then {| id := id todo; title := title todo;
                            completed := negb (completed todo) |}
                    else todo))
    as Htoggle.
  { intros n todo Hn. by rewrite todos_op_toggle, list_lookup_fmap, Hn. }
  rewrite todos_op_delete. split_and!; [|done|lia| | |done].
  - intros todo. rewrite list_elem_of_filter. tauto.
  - rewrite (Htoggle j X Hj). by rewrite decide_True.
  - rewrite (Htoggle k Y Hk). by rewrite decide_True.
Qed.

Lemma delete_and_toggle_reach_every_match_witness :
  0 ≠ 1
  ∧ todos st_same_tick !! 0 =
      Some {| id := 1000; title := of_ascii "a"; completed := false |}
  ∧ todos st_same_tick !! 1 =
      Some {| id := 1000; title := of_ascii "b"; completed := false |}
  ∧ length (todos (op_delete 1000 st_same_tick)) + 2 ≤ length (todos st_same_tick)
  ∧ todos (op_toggle 1000 st_same_tick) !! 1 =
      Some {| id := 1000; title := of_ascii "b"; completed := true |}.
Proof.
  assert (0 ≠ 1) as H0 by lia.
  assert (todos st_same_tick !! 0 =
      Some {| id := 1000; title := of_ascii "a"; completed := false |})
    as H1 by reflexivity.
  assert (todos st_same_tick !! 1 =
      Some {| id := 1000; title := of_ascii "b"; completed := false |})
    as H2 by reflexivity.
  destruct (delete_and_toggle_reach_every_match st_same_tick 1000 0 1 _ _
              H0 H1 H2 eq_refl eq_refl) as (_ & _ & Hlen & _ & Htog & _).
  split; [exact H0|]. split; [exact H1|]. split; [exact H2|].
  split; [exact Hlen|exact Htog].
Defined.

(** ** Identifiers *)

(** C5: ids do not stay pairwise distinct.  The id of a new todo is the
    clock reading of its add, so two adds that read the same millisecond
    store two todos with one id: the first add leaves distinct ids, the
    second one breaks it. *)
Theorem same_tick_adds_share_an_id :
  reachable st_same_tick
  ∧ st_same_tick =
      op_add 1000 (of_ascii "b") (op_add 1000 (of_ascii "a") initial)
  ∧ NoDup (id <$> todos (op_add 1000 (of_ascii "a") initial))
  ∧ id <$> todos st_same_tick = [1000; 1000]%Z
  ∧ ¬ NoDup (id <$> todos st_same_tick).
Proof.
  split; [apply st_same_tick_reachable|].
  split_and!; [reflexivity| |reflexivity|].
  - apply NoDup_singleton.
  - change (¬ NoDup [1000; 1000]%Z).
    intros [Hnotin _]%NoDup_cons. apply Hnotin, list_elem_of_here.
Qed.

(** ** The edit session *)

(** C6, as stated, fails for a text whose trimmed form is empty: with a
    todo in edit mode and its field holding three spaces, submitting the
    edit form leaves the application in edit mode on that todo. *)
Lemma save_of_blank_text_stays_in_edit_mode :
  reachable st_blank_edit
  ∧ editId st_blank_edit = Some 1000%Z
  ∧ editValue st_blank_edit = of_ascii "   "
  ∧ editId (step st_blank_edit SubmitEdit) = Some 1000%Z
  ∧ editId (step st_blank_edit SubmitEdit) ≠ None.
Proof.
  split; [apply st_blank_edit_reachable|].
  split_and!; [reflexivity..|]. vm_compute; discriminate.
Qed.

(** C6, amended: in edit mode on the todo with id i and with text in the
    field, submitting the edit form, when the trimmed text is not empty,
    gives every todo with id i the trimmed text as title and leaves edit
    mode, the editing slot and its text cleared; when the trimmed text is
    empty it changes nothing, and the application stays in edit mode.  In
    both cases the store is the one edit(i, text) gives. *)
Theorem save_commits_and_leaves_edit_mode_unless_blank
    (st : State) (i : Z) (text : jsstring) :
  editId st = Some i → editValue st = text →
  (trim text ≠ [] →
     todos (step st SubmitEdit) =
       (λ todo, if decide (id todo = i) then retitled (trim text) todo else todo)
       <$> todos st
     ∧ editId (step st SubmitEdit) = None
     ∧ editValue (step st SubmitEdit) = []
     ∧ input (step st SubmitEdit) = input st)
  ∧ (trim text = [] →
       step st SubmitEdit = st ∧ editId (step st SubmitEdit) = Some i)
  ∧ (∀ shown, todos (step st SubmitEdit) = todos (op_edit i shown text st)).
Proof.
  intros Hid <-. unfold step. simpl. split_and!.
  - intros Hne. rewrite save_nonblank by done. simpl. rewrite Hid.
    split_and!; [|done..].
    apply list_fmap_ext. intros _ todo _.
    destruct (decide (id todo = i)) as [->|Hn].
    + by rewrite decide_True.
    + rewrite decide_False; [done|]. intros [= Heq]. done.
  - intros He. by rewrite save_blank.
  - intros shown. destruct (decide (trim (editValue st) = [])) as [He|Hne].
    + by rewrite save_blank, todos_op_edit_blank.
    + rewrite save_nonblank, todos_op_edit by done. simpl. by rewrite Hid.
Qed.

Lemma save_commits_and_leaves_edit_mode_unless_blank_witness :
  editId (step st_blank_edit (ChangeEdit (of_ascii " b "))) = Some 1000%Z
  ∧ editValue (step st_blank_edit (ChangeEdit (of_ascii " b "))) = of_ascii " b "
  ∧ trim (of_ascii " b ") ≠ []
  ∧ step (step st_blank_edit (ChangeEdit (of_ascii " b "))) SubmitEdit =
      {| todos := [ {| id := 1000; title := of_ascii "b"; completed := false |} ];
         input := []; editId := None; editValue := [] |}
  ∧ editId st_blank_edit = Some 1000%Z
  ∧ editValue st_blank_edit = of_ascii "   "
  ∧ trim (of_ascii "   ") = []
  ∧ step st_blank_edit SubmitEdit = st_blank_edit.
Proof.
  pose proof (save_commits_and_leaves_edit_mode_unless_blank
                st_blank_edit 1000 (of_ascii "   ") eq_refl eq_refl)
    as (_ & Hblank & _).
  split_and!; [reflexivity..| |reflexivity| | | |].
  - vm_compute; discriminate.
  - reflexivity.
  - reflexivity.
  - reflexivity.
  - exact (proj1 (Hblank eq_refl)).
Defined.

(** ** Length of the stored titles *)

Lemma reachable_within_maxLength st : reachable st → within_maxLength st.
Proof.
  induction 1 as [|st ev _ IH Hev].
  - unfold within_maxLength, initial, maxLength. simpl.
    split_and!; [constructor|lia..].
  - by apply within_maxLength_step.
Qed.

(** C7, as stated, fails for the operations themselves: add stores a text
    of 81 code units as a title of 81 code units, and edit gives a stored
    todo a title of 83 code units. *)
Lemma add_and_edit_store_longer_titles :
  todos (op_add 1000 (replicate 81 97%N) initial) =
    [ {| id := 1000; title := replicate 81 97%N; completed := false |} ]
  ∧ length (replicate 81 97%N) = 81
  ∧ ¬ Forall (λ todo, length (title todo) ≤ 80)
        (todos (op_add 1000 (replicate 81 97%N) initial))
  ∧ todos (op_edit 1000 (of_ascii "a") (replicate 83 98%N)
             (op_add 1000 (of_ascii "a") initial)) =
      [ {| id := 1000; title := replicate 83 98%N; completed := false |} ]
  ∧ ¬ Forall (λ todo, length (title todo) ≤ 80)
        (todos (op_edit 1000 (of_ascii "a") (replicate 83 98%N)
                  (op_add 1000 (of_ascii "a") initial))).
Proof.
  split_and!; [reflexivity|reflexivity| |reflexivity|].
  - intros Hall. apply Forall_cons in Hall as [Hlen _].
    vm_compute in Hlen. lia.
  - intros Hall. apply Forall_cons in Hall as [Hlen _].
    vm_compute in Hlen. lia.
Qed.

(** C7, amended: when every text that the add field and the edit field
    deliver has at most 80 code units, as their [maxLength] makes it for
    typed text, and edit mode is entered with a stored title, every stored
    title has at most 80 code units in every state that is reached.
    Trimming never lengthens a text; the handlers themselves neither
    truncate nor reject. *)
Theorem stored_titles_at_most_80 (st : State) :
  reachable st →
  Forall (λ todo, length (title todo) ≤ 80) (todos st).
Proof.
  intros Hst. by destruct (reachable_within_maxLength st Hst) as [Ht _].
Qed.

Lemma stored_titles_at_most_80_witness :
  reachable st_blank_edit
  ∧ Forall (λ todo, length (title todo) ≤ 80) (todos st_blank_edit).
Proof.
  split; [exact st_blank_edit_reachable|].
  exact (stored_titles_at_most_80 st_blank_edit st_blank_edit_reachable).
Defined.

(** * Further properties of the handlers and of the rendered page *)

(** ** Trimmed texts *)

Lemma trimStart_head (s : jsstring) c :
  head (trimStart s) = Some c → isWhiteSpace c = false.
Proof.
  induction s as [|d s IH]; simpl; [done|].
  destruct (isWhiteSpace d) eqn:Hd; [done|].
  simpl. by intros [= <-].
Qed.

Lemma trimStart_fixed (s : jsstring) :
  (∀ c, head s = Some c → isWhiteSpace c = false) → trimStart s = s.
Proof.
  destruct s as [|c s]; [done|]. intros Hc. simpl.
  by rewrite (Hc c eq_refl).
Qed.

Lemma trimStart_suffix (s : jsstring) : trimStart s `suffix_of` s.
Proof.
  induction s as [|c s IH]; simpl; [done|].
  destruct (isWhiteSpace c); [by apply suffix_cons_r|done].
Qed.

Lemma trimEnd_prefix (s : jsstring) : trimEnd s `prefix_of` s.
Proof.
  destruct (trimStart_suffix (reverse s)) as [w Hw].
  exists (reverse w). unfold trimEnd.
  by rewrite <- reverse_app, <- Hw, reverse_involutive.
Qed.

Lemma trim_head (s : jsstring) c :
  head (trim s) = Some c → isWhiteSpace c = false.
Proof.
  unfold trim. intros Hc. apply (trimStart_head s).
  destruct (trimEnd_prefix (trimStart s)) as [w Hw].
  rewrite Hw. destruct (trimEnd (trimStart s)); [done|exact Hc].
Qed.

Lemma trim_last (s : jsstring) c :
  last (trim s) = Some c → isWhiteSpace c = false.
Proof.
  unfold trim, trimEnd. rewrite last_reverse. apply trimStart_head.
Qed.

Lemma trim_idempotent (s : jsstring) : trim (trim s) = trim s.
Proof.
  unfold trim at 1. rewrite (trimStart_fixed (trim s)) by apply trim_head.
  unfold trimEnd at 1. rewrite (trimStart_fixed (reverse (trim s))).
  - apply reverse_involutive.
  - intros c. rewrite head_reverse. apply trim_last.
Qed.

Lemma clean_title_trim (s : jsstring) : trim s ≠ [] → clean_title (trim s).
Proof.
  intros Hne. split_and!;
    [done|apply trim_idempotent|apply trim_head|apply trim_last].
Qed.

(** ** Single steps *)

Lemma step_SubmitAdd_blank st now :
  trim (input st) = [] → step st (SubmitAdd now) = st.
Proof.
  intros He. unfold step, fire. simpl. unfold handleAddTodo.
  rewrite He. by destruct st.
Qed.

Lemma step_SubmitAdd_nonblank st now :
  trim (input st) ≠ [] →
  step st (SubmitAdd now) =
    {| todos := todos st ++
                [ {| id := now; title := trim (input st); completed := false |} ];
       input := []; editId := editId st; editValue := editValue st |}.
Proof.
  intros Hne. unfold step, fire. simpl. unfold handleAddTodo.
  by rewrite (truthy_nonempty _ Hne).
Qed.

Lemma toggled_twice todo : toggled (toggled todo) = todo.
Proof. destruct todo as [i t c]. unfold toggled. simpl. by rewrite negb_involutive. Qed.

Lemma clean_titles_step st ev :
  Forall (λ todo, clean_title (title todo)) (todos st) →
  Forall (λ todo, clean_title (title todo)) (todos (step st ev)).
Proof.
  intros Hst. destruct ev as [v|now|i|i t|v| | |i]; try done.
  - destruct (decide (trim (input st) = [])) as [He|Hne].
    + by rewrite step_SubmitAdd_blank.
    + rewrite step_SubmitAdd_nonblank by done. simpl.
      apply Forall_app. split; [done|]. apply Forall_singleton.
      by apply clean_title_trim.
  - unfold step, fire. simpl. apply Forall_fmap.
    eapply Forall_impl; [exact Hst|]. intros todo Hc. simpl.
    by destruct (decide (id todo = i)).
  - unfold step. simpl.
    destruct (decide (trim (editValue st) = [])) as [He|Hne].
    + by rewrite save_blank.
    + rewrite save_nonblank by done. simpl. apply Forall_fmap.
      eapply Forall_impl; [exact Hst|]. intros todo Hc. simpl.
      destruct (decide (Some (id todo) = editId st)); [|done].
      by apply clean_title_trim.
  - unfold step, fire. simpl.
    apply Forall_forall. intros todo [_ Hin]%list_elem_of_filter.
    rewrite Forall_forall in Hst. by apply Hst.
Qed.

(** X1: toggling the same id twice gives back the state it started from,
    whatever the store holds, todos sharing an id included. *)
Theorem toggle_twice_restores (st : State) (i : Z) :
  op_toggle i (op_toggle i st) = st.
Proof.
  unfold op_toggle, fire. simpl. destruct st as [l inp e v]. simpl. f_equal.
  rewrite <- list_fmap_compose. rewrite <- (list_fmap_id l) at 2.
  apply list_fmap_ext. intros _ todo _. simpl.
  destruct (decide (id todo = i)) as [Hi|Hi].
  - rewrite decide_True by done. apply toggled_twice.
  - by rewrite decide_False.
Qed.

(** X2: whatever events are handled, starting from the empty store, every
    stored title is non-empty, is its own trimmed form, and neither begins
    nor ends with a white-space code unit. *)
Theorem stored_titles_are_clean (evs : list Event) :
  Forall (λ todo, clean_title (title todo)) (todos (run initial evs)).
Proof.
  assert (∀ st, Forall (λ todo, clean_title (title todo)) (todos st) →
            Forall (λ todo, clean_title (title todo)) (todos (run st evs)))
    as Hrun.
  { induction evs as [|ev evs IH]; intros st Hst; [done|].
    simpl. apply IH. by apply clean_titles_step. }
  apply Hrun. constructor.
Qed.

(** X3: submitting a form a second time, with nothing typed in between,
    changes nothing: a successful add empties the add field and a
    successful save empties the edit text, so the second submit meets a
    blank text, and a submit that did nothing does nothing again. *)
Theorem second_submit_does_nothing (st : State) (now1 now2 : Z) :
  step (step st (SubmitAdd now1)) (SubmitAdd now2) = step st (SubmitAdd now1)
  ∧ step (step st SubmitEdit) SubmitEdit = step st SubmitEdit.
Proof.
  split.
  - destruct (decide (trim (input st) = [])) as [He|Hne].
    + rewrite (step_SubmitAdd_blank st now1 He).
      by apply step_SubmitAdd_blank.
    + rewrite (step_SubmitAdd_nonblank st) by done.
      by apply step_SubmitAdd_blank.
  - unfold step. simpl.
    destruct (decide (trim (editValue st) = [])) as [He|Hne].
    + rewrite (save_blank st He). by apply save_blank.
    + rewrite (save_nonblank st) by done. by apply save_blank.
Qed.

(** ** The edit session and the store *)

Lemma session_only_step st ev :
  session_only ev = true → todos (step st ev) = todos st.
Proof. by destruct ev. Qed.

(** X4: typing in the add field, entering edit mode, typing in the edit
    field and cancelling never change the store, however many such events
    follow one another. *)
Theorem session_events_leave_the_store (st : State) (evs : list Event) :
  Forall (λ ev, session_only ev = true) evs →
  todos (run st evs) = todos st.
Proof.
  intros Hevs. revert st.
  induction Hevs as [|ev evs Hev _ IH]; intros st; [done|].
  simpl. by rewrite IH, session_only_step.
Qed.

Lemma session_events_leave_the_store_witness :
  Forall (λ ev, session_only ev = true)
    [ StartEdit 1000 (of_ascii "Buy milk"); ChangeEdit (of_ascii "x");
      ChangeInput (of_ascii "y"); CancelEdit ]
  ∧ todos (run st_two
             [ StartEdit 1000 (of_ascii "Buy milk"); ChangeEdit (of_ascii "x");
               ChangeInput (of_ascii "y"); CancelEdit ])
    = todos st_two.
Proof.
  assert (Forall (λ ev, session_only ev = true)
    [ StartEdit 1000 (of_ascii "Buy milk"); ChangeEdit (of_ascii "x");
      ChangeInput (of_ascii "y"); CancelEdit ]) as H1
    by (repeat constructor).
  split; [exact H1|].
  exact (session_events_leave_the_store st_two _ H1).
Defined.

Lemma run_app st evs1 evs2 : run st (evs1 ++ evs2) = run (run st evs1) evs2.
Proof. apply foldl_app. Qed.

Lemma run_ChangeEdit st (values : list jsstring) :
  run st (ChangeEdit <$> values) =
    {| todos := todos st; input := input st; editId := editId st;
       editValue := default (editValue st) (last values) |}.
Proof.
  revert st. induction values as [|v values IH]; intros st; simpl.
  - by destruct st.
  - rewrite IH. simpl. f_equal.
    destruct values as [|w values]; [done|]. rewrite last_cons_cons.
    destruct (last (w :: values)) eqn:Hl; [done|].
    by apply last_None in Hl.
Qed.

(** X5: entering edit mode, typing any number of texts and then cancelling
    leaves the store and the add field as they were and the edit slot
    empty: nothing of what was typed is kept. *)
Theorem cancel_discards_the_edit
    (st : State) (i : Z) (shown : jsstring) (values : list jsstring) :
  run st (StartEdit i shown :: (ChangeEdit <$> values) ++ [CancelEdit]) =
    {| todos := todos st; input := input st; editId := None; editValue := [] |}.
Proof.
  simpl. by rewrite run_app, run_ChangeEdit.
Qed.

(** X6: toggling and saving an edit never add, remove or reorder todos: the
    sequence of ids is the same afterwards, in any store.  Toggling leaves
    every title as it was, saving leaves every completed flag as it was. *)
Theorem toggle_and_save_keep_the_sequence (st : State) (i : Z) :
  id <$> todos (step st (Toggle i)) = id <$> todos st
  ∧ title <$> todos (step st (Toggle i)) = title <$> todos st
  ∧ id <$> todos (step st SubmitEdit) = id <$> todos st
  ∧ completed <$> todos (step st SubmitEdit) = completed <$> todos st.
Proof.
  split_and!.
  - apply ids_op_toggle.
  - change (step st (Toggle i)) with (op_toggle i st).
    rewrite todos_op_toggle, <- list_fmap_compose.
    apply list_fmap_ext. intros _ todo _. simpl.
    by destruct (decide (id todo = i)).
  - apply ids_fire_handleEditSave.
  - unfold step. simpl.
    destruct (decide (trim (editValue st) = [])) as [He|Hne].
    + by rewrite save_blank.
    + rewrite save_nonblank by done. simpl. rewrite <- list_fmap_compose.
      apply list_fmap_ext. intros _ todo _. simpl.
      by destruct (decide (Some (id todo) = editId st)).
Qed.

(** X7: after delete(i) no stored todo carries i; what is left is the old
    sequence with todos taken out, the rest in their order; deleting the
    same id again changes nothing, and two deletes give the same state in
    either order. *)
Theorem delete_clears_the_id (st : State) (i j : Z) :
  (i ∉ (id <$> todos (op_delete i st)))
  ∧ todos (op_delete i st) `sublist_of` todos st
  ∧ op_delete i (op_delete i st) = op_delete i st
  ∧ op_delete i (op_delete j st) = op_delete j (op_delete i st).
Proof.
  split_and!.
  - rewrite todos_op_delete. intros (todo & Hi & Hin)%list_elem_of_fmap.
    apply list_elem_of_filter in Hin as [Hne _]. done.
  - rewrite todos_op_delete. apply sublist_filter.
  - unfold op_delete, fire. simpl. f_equal.
    rewrite list_filter_filter. apply list_filter_iff. tauto.
  - unfold op_delete, fire. simpl. f_equal.
    rewrite !list_filter_filter. apply list_filter_iff. tauto.
Qed.

(** X12: only a submitted add makes the store longer: it keeps the stored
    todos as they are and puts at most one after them.  A delete leaves a
    part of the old sequence, in its order, shorter by exactly the number
    of todos that carried the id, which may be more than one.  Every other
    event leaves the number of todos as it was. *)
Theorem store_grows_only_by_add (st : State) (ev : Event) :
  match ev with
  | SubmitAdd _ =>
      todos st `prefix_of` todos (step st ev)
      ∧ length (todos (step st ev)) ≤ S (length (todos st))
  | Delete i =>
      todos (step st ev) `sublist_of` todos st
      ∧ length (todos (step st ev))
        + length (filter (λ todo, id todo = i) (todos st))
        = length (todos st)
  | _ => length (todos (step st ev)) = length (todos st)
  end.
Proof.
  destruct ev as [v|now|i|i t|v| | |i]; try done.
  - destruct (decide (trim (input st) = [])) as [He|Hne].
    + rewrite step_SubmitAdd_blank by done. split; [done|lia].
    + rewrite step_SubmitAdd_nonblank by done. simpl.
      split; [by apply prefix_app_r|]. rewrite length_app. simpl. lia.
  - unfold step, fire. simpl. by rewrite length_fmap.
  - unfold step. simpl.
    destruct (decide (trim (editValue st) = [])) as [He|Hne].
    + by rewrite save_blank.
    + rewrite save_nonblank by done. simpl. by rewrite length_fmap.
  - unfold step, fire. simpl. split; [apply sublist_filter|].
    apply (length_filter_split (λ todo, id todo = i)).
Qed.

(** ** Identifiers under an advancing clock *)

Lemma StronglySorted_sublist (l1 l2 : list Z) :
  l1 `sublist_of` l2 → StronglySorted Z.lt l2 → StronglySorted Z.lt l1.
Proof.
  induction 1 as [|x l1 l2 Hsub IH|x l1 l2 Hsub IH];
    rewrite ?StronglySorted_cons; [done| |].
  - intros [Hall Hs]. split; [|by apply IH].
    rewrite Forall_forall in Hall |- *. intros y Hy. apply Hall.
    by eapply elem_of_sublist.
  - intros [_ Hs]. by apply IH.
Qed.

Lemma StronglySorted_lt_NoDup (l : list Z) : StronglySorted Z.lt l → NoDup l.
Proof.
  induction l as [|x l IH]; [constructor|].
  rewrite StronglySorted_cons, NoDup_cons. intros [Hall Hs].
  split; [|by apply IH]. intros Hin.
  rewrite Forall_forall in Hall. specialize (Hall x Hin). lia.
Qed.

Lemma ids_step_ascending st ev (later : list Z) :
  StronglySorted Z.lt ((id <$> todos st) ++ clock_of [ev] ++ later) →
  StronglySorted Z.lt ((id <$> todos (step st ev)) ++ later).
Proof.
  intros Hs.
  destruct ev as [v|now|i|i t|v| | |i];
    change (StronglySorted Z.lt ((id <$> todos st) ++ later)) in Hs
    || change (StronglySorted Z.lt ((id <$> todos st) ++ now :: later)) in Hs;
    try exact Hs.
  - destruct (decide (trim (input st) = [])) as [He|Hne].
    + rewrite step_SubmitAdd_blank by done.
      eapply StronglySorted_sublist; [|exact Hs].
      apply sublist_app; [done|]. by apply sublist_cons.
    + rewrite step_SubmitAdd_nonblank by done. simpl.
      by rewrite fmap_app, <- app_assoc.
  - change (step st (Toggle i)) with (op_toggle i st).
    by rewrite ids_op_toggle.
  - unfold step. simpl. by rewrite ids_fire_handleEditSave.
  - eapply StronglySorted_sublist; [|exact Hs]. apply sublist_app; [|done].
    change (step st (Delete i)) with (op_delete i st).
    rewrite todos_op_delete. apply fmap_sublist, sublist_filter.
Qed.

Lemma ids_run_ascending evs st :
  StronglySorted Z.lt ((id <$> todos st) ++ clock_of evs) →
  StronglySorted Z.lt (id <$> todos (run st evs)).
Proof.
  revert st. induction evs as [|ev evs IH]; intros st Hs; simpl.
  - simpl in Hs. by rewrite app_nil_r in Hs.
  - apply IH. apply ids_step_ascending.
    replace (clock_of [ev] ++ clock_of evs) with (clock_of (ev :: evs));
      [done|].
    by destruct ev.
Qed.

(** X8: when the clock readings of the successive add submissions are
    strictly increasing, the ids of the stored todos are strictly
    increasing along the sequence, hence pairwise distinct, whatever other
    events the session contains. *)
Theorem advancing_clock_gives_distinct_ids (evs : list Event) :
  StronglySorted Z.lt (clock_of evs) →
  StronglySorted Z.lt (id <$> todos (run initial evs))
  ∧ NoDup (id <$> todos (run initial evs)).
Proof.
  intros Hclock.
  assert (StronglySorted Z.lt (id <$> todos (run initial evs))) as Hs
    by (by apply ids_run_ascending).
  split; [done|by apply StronglySorted_lt_NoDup].
Qed.

Lemma advancing_clock_gives_distinct_ids_witness :
  StronglySorted Z.lt (clock_of page_session)
  ∧ NoDup (id <$> todos (run initial page_session)).
Proof.
  assert (StronglySorted Z.lt (clock_of page_session)) as H1.
  { change (StronglySorted Z.lt [1000; 1001]%Z).
    repeat constructor. }
  split; [exact H1|].
  exact (proj2 (advancing_clock_gives_distinct_ids page_session H1)).
Defined.

(** ** How toggling composes with the other operations *)

Lemma filter_fmap_stable {A} (P : A → Prop) `{!∀ x, Decision (P x)}
    (f : A → A) (l : list A) :
  (∀ x, P (f x) ↔ P x) → filter P (f <$> l) = f <$> filter P l.
Proof.
  intros Hf. induction l as [|x l IH]; [done|].
  rewrite fmap_cons, !filter_cons, IH.
  destruct (decide (P x)) as [Hx|Hx].
  - by rewrite decide_True by (by apply Hf).
  - by rewrite decide_False by (by rewrite Hf).
Qed.

(** X13: toggling commutes with the other changes of the store: two
    toggles, a toggle and a delete, and a toggle and the save of an edit
    give the same state in either order. *)
Theorem toggle_commutes (st : State) (i j : Z) :
  op_toggle i (op_toggle j st) = op_toggle j (op_toggle i st)
  ∧ op_delete j (op_toggle i st) = op_toggle i (op_delete j st)
  ∧ step (step st (Toggle i)) SubmitEdit = step (step st SubmitEdit) (Toggle i).
Proof.
  split_and!.
  - unfold op_toggle, fire. simpl. f_equal.
    rewrite <- !list_fmap_compose. apply list_fmap_ext. intros _ todo _. simpl.
    unfold toggled. repeat (case_decide; simpl in *); done.
  - unfold op_delete, op_toggle, fire. simpl. f_equal.
    apply (filter_fmap_stable (λ todo, id todo ≠ j)).
    intros todo. by destruct (decide (id todo = i)).
  - change (fire handleEditSave (op_toggle i st)
            = op_toggle i (fire handleEditSave st)).
    destruct (decide (trim (editValue st) = [])) as [He|Hne].
    + rewrite (save_blank st He). by apply save_blank.
    + rewrite (save_nonblank st Hne), save_nonblank by done.
      unfold op_toggle, fire. simpl. f_equal.
      rewrite <- !list_fmap_compose. apply list_fmap_ext. intros _ todo _.
      simpl.
      unfold toggled, retitled.
      repeat (case_decide; simpl in *); done.
Qed.

(** ** The rendered page *)

Lemma item_of_render st it :
  it ∈ items (render st) → ∃ todo, todo ∈ todos st ∧ it = renderItem st todo.
Proof.
  simpl. intros (todo & -> & Hin)%list_elem_of_fmap. by exists todo.
Qed.

Lemma renderItem_edit_form st todo :
  shows_edit_form (renderItem st todo) ↔ editId st = Some (id todo).
Proof.
  unfold shows_edit_form, renderItem. simpl.
  destruct (decide (editId st = Some (id todo))) as [He|He].
  - rewrite bool_decide_eq_true_2 by done. split; [done|]. by eexists.
  - rewrite bool_decide_eq_false_2 by done. split; [|done]. by intros [v Hv].
Qed.

Lemma renderItem_actions st todo :
  item_actions (renderItem st todo) = true ↔ editId st ≠ Some (id todo).
Proof.
  unfold renderItem. simpl.
  destruct (decide (editId st = Some (id todo))) as [He|He].
  - by rewrite bool_decide_eq_true_2 by done.
  - by rewrite bool_decide_eq_false_2 by done.
Qed.

Lemma edit_slot_sound_step st ev :
  edit_slot_sound st → offered (render st) ev → edit_slot_sound (step st ev).
Proof.
  intros [Hin Hidle] Hev.
  destruct ev as [v|now|i|i t|v| | |i].
  - done.
  - destruct (decide (trim (input st) = [])) as [He|Hne].
    + by rewrite step_SubmitAdd_blank.
    + rewrite step_SubmitAdd_nonblank by done. split; [|done]. simpl.
      intros k Hk. rewrite fmap_app. apply elem_of_app. left. by apply Hin.
  - split; [|done]. intros k Hk.
    change (step st (Toggle i)) with (op_toggle i st).
    rewrite ids_op_toggle. by apply Hin.
  - destruct Hev as (it & Hit & Hkey & _).
    apply item_of_render in Hit as (todo & Htodo & ->). simpl in Hkey.
    split; [|done]. simpl. intros k [= <-].
    apply list_elem_of_fmap. by exists todo.
  - destruct Hev as [(it & Hit & Hform) _].
    apply item_of_render in Hit as (todo & Htodo & ->).
    apply renderItem_edit_form in Hform.
    split; [done|]. simpl. intros Hnone. by rewrite Hform in Hnone.
  - unfold step. simpl.
    destruct (decide (trim (editValue st) = [])) as [He|Hne].
    + by rewrite save_blank.
    + by rewrite save_nonblank.
  - done.
  - destruct Hev as (it & Hit & Hkey & Hact).
    apply item_of_render in Hit as (todo & Htodo & ->). simpl in Hkey.
    apply renderItem_actions in Hact. subst i.
    split; [|done]. simpl. intros k Hk.
    pose proof (Hin k Hk) as Hstored.
    apply list_elem_of_fmap in Hstored as (other & Hid & Hother).
    apply list_elem_of_fmap. exists other. split; [done|].
    apply list_elem_of_filter. split; [|done].
    intros Heq. apply Hact. by rewrite Hk, Hid, Heq.
Qed.

(** X9: the add button is disabled exactly when submitting the add form
    would leave the state as it is. *)
Theorem add_button_disabled_iff_submit_does_nothing (st : State) (now : Z) :
  add_disabled (render st) = true ↔ step st (SubmitAdd now) = st.
Proof.
  simpl. destruct (decide (trim (input st) = [])) as [He|Hne].
  - rewrite He. simpl. split; [|done]. intros _.
    by apply step_SubmitAdd_blank.
  - rewrite (truthy_nonempty _ Hne). simpl. split; [done|].
    rewrite step_SubmitAdd_nonblank by done. intros Heq.
    apply (f_equal (λ s, length (todos s))) in Heq. simpl in Heq.
    rewrite length_app in Heq. simpl in Heq. lia.
Qed.

(** X10: in a session made of events the page offers, starting from the
    first render, and in which the keys of the list items stay pairwise
    distinct, the edit slot always names a stored todo, so that the edit
    form, holding the text being typed, is on the page whenever the
    application is in edit mode; and outside edit mode no edit text is
    left over. *)
Theorem page_sessions_keep_the_edit_form_visible (evs : list Event) :
  offered_all initial evs →
  edit_slot_sound (run initial evs)
  ∧ (∀ i, editId (run initial evs) = Some i →
       ∃ it, it ∈ items (render (run initial evs))
             ∧ item_key it = i
             ∧ item_body it = EditForm (editValue (run initial evs))).
Proof.
  intros Hevs.
  assert (∀ st, edit_slot_sound st → offered_all st evs →
            edit_slot_sound (run st evs)) as Hrun.
  { clear Hevs. induction evs as [|ev evs IH]; intros st Hst Hoff; [done|].
    destruct Hoff as (_ & Hev & Hoff). simpl. apply IH; [|done].
    by apply edit_slot_sound_step. }
  assert (edit_slot_sound (run initial evs)) as Hsound.
  { apply Hrun; [|done]. split; [done|done]. }
  split; [done|]. intros i Hi.
  destruct Hsound as [Hin _].
  pose proof (Hin i Hi) as Hstored.
  apply list_elem_of_fmap in Hstored as (todo & Hid & Htodo).
  exists (renderItem (run initial evs) todo). split_and!.
  - simpl. apply list_elem_of_fmap. by exists todo.
  - done.
  - simpl. by rewrite bool_decide_eq_true_2 by (by rewrite Hi, Hid).
Qed.

Lemma page_session_offered : offered_all initial page_session.
Proof.
  unfold page_session. simpl. unfold maxLength, keys_distinct.
  split_and!; try done; try (vm_compute; lia);
    try (apply (bool_decide_unpack _); vm_compute; exact I).
  - eexists. split; [apply list_elem_of_further, list_elem_of_here|].
    by vm_compute.
  - eexists. split; [apply list_elem_of_further, list_elem_of_here|].
    by eexists.
  - eexists. split; [apply list_elem_of_here|]. by vm_compute.
Qed.

Lemma page_sessions_keep_the_edit_form_visible_witness :
  offered_all initial page_session
  ∧ editId (run initial page_session) = Some 1001%Z
  ∧ edit_slot_sound (run initial page_session).
Proof.
  split; [exact page_session_offered|]. split; [reflexivity|].
  exact (proj1 (page_sessions_keep_the_edit_form_visible page_session
                  page_session_offered)).
Defined.

(** X11: while the stored ids are pairwise distinct, at most one item of
    the page shows an edit form. *)
Theorem distinct_ids_show_one_edit_form
    (st : State) (a b : nat) (ita itb : ItemView) :
  NoDup (id <$> todos st) →
  items (render st) !! a = Some ita →
  items (render st) !! b = Some itb →
  shows_edit_form ita → shows_edit_form itb →
  a = b.
Proof.
  simpl. intros Hnd Ha Hb Hfa Hfb.
  apply list_lookup_fmap_Some in Ha as (ta & -> & Hta).
  apply list_lookup_fmap_Some in Hb as (tb & -> & Htb).
  apply renderItem_edit_form in Hfa, Hfb.
  eapply NoDup_lookup; [exact Hnd| |].
  - by rewrite list_lookup_fmap, Hta.
  - rewrite list_lookup_fmap, Htb. simpl.
    rewrite Hfa in Hfb. by injection Hfb as ->.
Qed.

Lemma distinct_ids_show_one_edit_form_witness :
  NoDup (id <$> todos (run initial page_session))
  ∧ items (render (run initial page_session)) !! 1 =
      Some (renderItem (run initial page_session)
              {| id := 1001; title := of_ascii "Walk dog"; completed := false |})
  ∧ shows_edit_form
      (renderItem (run initial page_session)
         {| id := 1001; title := of_ascii "Walk dog"; completed := false |})
  ∧ 1 = 1.
Proof.
  assert (NoDup (id <$> todos (run initial page_session))) as H1.
  { apply (bool_decide_unpack _). vm_compute. exact I. }
  assert (items (render (run initial page_session)) !! 1 =
      Some (renderItem (run initial page_session)
              {| id := 1001; title := of_ascii "Walk dog"; completed := false |}))
    as H2 by reflexivity.
  assert (shows_edit_form
      (renderItem (run initial page_session)
         {| id := 1001; title := of_ascii "Walk dog"; completed := false |}))
    as H3 by (by eexists).
  split; [exact H1|]. split; [exact H2|]. split; [exact H3|].
  exact (distinct_ids_show_one_edit_form _ 1 1 _ _ H1 H2 H2 H3 H3).
Defined.
